(** * The s390 architecture descriptor: [globalDefinitions_s390.hpp]

    The header is a flat list of preprocessor definitions and
    namespace-scope [const] objects.  It is embedded twice:

    - as the sequence of lines a translation unit sees, interpreted by a
      small model of the preprocessor's macro table and the compiler's
      table of constant objects (module [Cpp]), which is where "defined",
      "redefined" and "expands to" have a meaning;
    - as plain Rocq constants carrying the source's names, which is what
      consuming code reads.

    Adequacy lemmas tie the two together. *)

From Stdlib Require Import ZArith Lia Bool List String.
From stdpp Require Import base option strings gmap.

Import ListNotations.
Local Open Scope string_scope.
Local Open Scope list_scope.
Local Open Scope Z_scope.

(** ** A fragment of the translation phases *)

Module Cpp.

(** Preprocessing tokens that occur in the header: integer literals, the
    boolean literals and identifiers. *)
Inductive token : Type :=
| Lit_int (z : Z)
| Lit_bool (b : bool)
| Ident (s : string).

(** The three object types the header declares. *)
Inductive ctype : Type :=
| c_int      (* int:    32 bit, signed   *)
| c_size_t   (* size_t: 64 bit, unsigned *)
| c_bool.

Inductive cvalue : Type :=
| Vint (z : Z)
| Vsize (z : Z)
| Vbool (b : bool).

(** One line of a header, comments dropped.  The model starts where the
    words [const], [int], [size_t], [bool], [true] and [false] have their
    usual meaning: a line carries the type and the literals it was written
    with, the declaration of [size_t] by an earlier header is taken for
    granted, and a macro named like one of these words is not followed. *)
Inductive line : Type :=
| Define (name : string) (body : list token)             (* #define name body   *)
| Undef (name : string)                                  (* #undef name         *)
| Const (ty : ctype) (name : string) (init : list token) (* const ty name = init; *).

(** A header protected by the usual include guard:
    [#ifndef g] / [#define g] / lines / [#endif]. *)
Record header : Type := Header { guard : string; lines : list line }.

#[global] Instance token_eq_dec : EqDecision token.
Proof. solve_decision. Defined.

#[global] Instance cvalue_eq_dec : EqDecision cvalue.
Proof. solve_decision. Defined.

(** The state of a translation unit: the macro table and the constant
    objects declared so far. *)
Record tu_state : Type := TU {
  macros : gmap string (list token);
  objects : gmap string cvalue
}.

Definition tu_empty : tu_state := TU ∅ ∅.

Definition defined (st : tu_state) (name : string) : bool :=
  bool_decide (is_Some (macros st !! name)).

(** Wrap-around of the two integer types. *)
Definition wrap_int (z : Z) : Z := (z + 2 ^ 31) mod 2 ^ 32 - 2 ^ 31.
Definition wrap_size_t (z : Z) : Z := z mod 2 ^ 64.

(** Macro replacement over a token sequence.  An identifier that names a
    macro is replaced by the replacement of the macro's body ([sub]); while
    a macro is being replaced its own name is not replaced again
    ([hide]). *)
Fixpoint replace_tokens (sub : list string -> list token -> option (list token))
    (M : gmap string (list token)) (hide : list string) (ts : list token)
    : option (list token) :=
  match ts with
  | [] => Some []
  | Ident s :: rest =>
      if bool_decide (s ∈ hide)
      then cons (Ident s) <$> replace_tokens sub M hide rest
      else match M !! s with
           | Some body =>
               match sub (s :: hide) body, replace_tokens sub M hide rest with
               | Some b', Some r' => Some (b' ++ r')
               | _, _ => None
               end
           | None => cons (Ident s) <$> replace_tokens sub M hide rest
           end
  | t :: rest => cons t <$> replace_tokens sub M hide rest
  end.

(** [fuel] bounds the nesting depth of replacements. *)
Fixpoint expand (fuel : nat) (M : gmap string (list token)) (hide : list string)
    (ts : list token) : option (list token) :=
  match fuel with
  | O => None
  | S fuel' => replace_tokens (expand fuel' M) M hide ts
  end.

(** Nesting can be no deeper than the number of macros. *)
Definition expand_all (M : gmap string (list token)) (ts : list token)
    : option (list token) :=
  expand (S (size M)) M [] ts.

(** Initialisation of an object of type [ty] from a constant expression
    that is a single literal after macro replacement. *)
Definition convert (ty : ctype) (t : token) : option cvalue :=
  match ty, t with
  | c_int, Lit_int z => Some (Vint (wrap_int z))
  | c_int, Lit_bool b => Some (Vint (if b then 1 else 0))
  | c_size_t, Lit_int z => Some (Vsize (wrap_size_t z))
  | c_size_t, Lit_bool b => Some (Vsize (if b then 1 else 0))
  | c_bool, Lit_int z => Some (Vbool (negb (z =? 0)))
  | c_bool, Lit_bool b => Some (Vbool b)
  | _, Ident _ => None
  end.

(** Conversion of the value of a constant object to type [ty]. *)
Definition convert_value (ty : ctype) (v : cvalue) : cvalue :=
  match ty, v with
  | c_int, Vint z => Vint z
  | c_int, Vsize z => Vint (wrap_int z)
  | c_int, Vbool b => Vint (if b then 1 else 0)
  | c_size_t, Vint z => Vsize (wrap_size_t z)
  | c_size_t, Vsize z => Vsize z
  | c_size_t, Vbool b => Vsize (if b then 1 else 0)
  | c_bool, Vint z => Vbool (negb (z =? 0))
  | c_bool, Vsize z => Vbool (negb (z =? 0))
  | c_bool, Vbool b => Vbool b
  end.

(** The initialiser of an object: after macro replacement, one literal or
    the name of a constant object declared before. *)
Definition eval_init (st : tu_state) (ty : ctype) (init : list token)
    : option cvalue :=
  match expand_all (macros st) init with
  | Some [Ident m] => convert_value ty <$> objects st !! m
  | Some [t] => convert ty t
  | _ => None
  end.

(** One line, as a conforming translation takes it.  Defining a macro again
    is accepted only with the same body.  The declarator of an object is macro-replaced like any other token and
    must come out as an identifier; declaring an object again is an
    error. *)
Definition step (st : tu_state) (l : line) : option tu_state :=
  match l with
  | Define n body =>
      match macros st !! n with
      | None => Some (TU (<[n := body]> (macros st)) (objects st))
      | Some old => if bool_decide (old = body) then Some st else None
      end
  | Undef n => Some (TU (delete n (macros st)) (objects st))
  | Const ty n init =>
      match expand_all (macros st) [Ident n] with
      | Some [Ident m] =>
          match objects st !! m with
          | Some _ => None
          | None =>
              match eval_init st ty init with
              | Some v => Some (TU (macros st) (<[m := v]> (objects st)))
              | None => None
              end
          end
      | _ => None
      end
  end.

Fixpoint process (ls : list line) (st : tu_state) : option tu_state :=
  match ls with
  | [] => Some st
  | l :: rest =>
      match step st l with
      | Some st' => process rest st'
      | None => None
      end
  end.

(** [#include] of a guarded header. *)
Definition include (h : header) (st : tu_state) : option tu_state :=
  if defined st (guard h) then Some st
  else process (Define (guard h) [] :: lines h) st.

(** The value a use of [name] denotes in state [st].  The use is
    macro-replaced first; what remains is a literal, or an identifier that
    names an object. *)
Definition literal_value (t : token) : option cvalue :=
  match t with
  | Lit_int z =>
      (* an unsuffixed literal has type int when it fits; wider literals
         are not needed here *)
      if (0 <=? z) && (z <? 2 ^ 31) then Some (Vint z) else None
  | Lit_bool b => Some (Vbool b)
  | Ident _ => None
  end.

Definition read (st : tu_state) (name : string) : option cvalue :=
  match expand_all (macros st) [Ident name] with
  | Some [Ident m] => objects st !! m
  | Some [t] => literal_value t
  | _ => None
  end.

Definition line_name (l : line) : string :=
  match l with
  | Define n _ => n
  | Undef n => n
  | Const _ n _ => n
  end.

Definition is_undef (l : line) : bool :=
  match l with Undef _ => true | _ => false end.

Definition is_literal (t : token) : bool :=
  match t with Ident _ => false | _ => true end.

End Cpp.

Import Cpp.

(** ** The header *)

Definition globalDefinitions_s390_hpp : header :=
  Header "CPU_S390_GLOBALDEFINITIONS_S390_HPP"
    [ Define "ShortenBranches" [Lit_bool true];
      Const c_int "StackAlignmentInBytes" [Lit_int 8];
      Const c_size_t "pd_segfault_address" [Lit_int 4096];
      Define "SUPPORTS_NATIVE_CX8" [];
      Define "CPU_MULTI_COPY_ATOMIC" [];
      Const c_bool "CCallingConventionRequiresIntsAsLongs" [Lit_bool true];
      Define "DEFAULT_CACHE_LINE_SIZE" [Lit_int 256];
      Define "DEFAULT_PADDING_SIZE" [Ident "DEFAULT_CACHE_LINE_SIZE"];
      Define "SUPPORT_RESERVED_STACK_AREA" [] ].

(** The state of a translation unit that holds no macro and no object when
    it includes the header. *)
Definition s390_unit : option tu_state :=
  include globalDefinitions_s390_hpp tu_empty.

Definition s390_read (name : string) : option cvalue :=
  match s390_unit with
  | Some st => read st name
  | None => None
  end.

Definition s390_defined (name : string) : bool :=
  match s390_unit with
  | Some st => defined st name
  | None => false
  end.

(** The state itself; [s390_unit_translates] below shows that the
    translation does succeed. *)
Definition s390_state : tu_state := default tu_empty s390_unit.

(** The same facts as the constants consuming code reads.  A value macro is
    the constant its body denotes; a flag macro, which has no body, is the
    truth of [#ifdef]. *)

Definition ShortenBranches : bool := true.

Definition StackAlignmentInBytes : Z := 8.

(* All faults on s390x give the address only on page granularity.
   Set Pdsegfault_address to minimum one page address. *)
Definition pd_segfault_address : Z := 4096.

Definition SUPPORTS_NATIVE_CX8 : bool := s390_defined "SUPPORTS_NATIVE_CX8".

Definition CPU_MULTI_COPY_ATOMIC : bool := s390_defined "CPU_MULTI_COPY_ATOMIC".

(* Indicates whether the C calling conventions require that
   32-bit integer argument values are extended to 64 bits. *)
Definition CCallingConventionRequiresIntsAsLongs : bool := true.

(* The expected size in bytes of a cache line, used to pad data structures. *)
Definition DEFAULT_CACHE_LINE_SIZE : Z := 256.

(* The default padding size for data structures to avoid false sharing. *)
Definition DEFAULT_PADDING_SIZE : Z := DEFAULT_CACHE_LINE_SIZE.

Definition SUPPORT_RESERVED_STACK_AREA : bool :=
  s390_defined "SUPPORT_RESERVED_STACK_AREA".

(** Modelled from the spec: the natural word size of the target, which this
    header does not declare; the target is a 64-bit one, so a word has 8
    bytes. *)
Definition wordSize : Z := 8.

(** A positive power of two. *)
Definition is_power_of_2 (v : Z) : Prop := exists k : Z, 0 <= k /\ v = 2 ^ k.

(** ** Consumers of the descriptor

    The subsystems that read the descriptor live in other files.  The two
    that the descriptor's contract speaks about are modelled here from that
    contract. *)

(** Modelled from the spec: rounding an address down to the nearest
    multiple of a granularity, which the fault decoder (not part of this
    header) applies to a reported fault address: "it may round the faulting
    address down to the nearest multiple of this value". *)
Definition round_down (x g : Z) : Z := g * (x / g).

(** The same rounding written with a bit mask, as is usual for a
    granularity that is a power of two. *)
Definition round_down_mask (x g : Z) : Z := Z.land x (Z.lnot (g - 1)).

(** A guard page, given as the byte range [[gp_base, gp_base + gp_size)]. *)
Record guard_page : Type := GuardPage { gp_base : Z; gp_size : Z }.

Definition in_byte_range (a : Z) (G : guard_page) : Prop :=
  gp_base G <= a < gp_base G + gp_size G.

(** Modelled from the spec: the fault classifier of the stack-guard
    subsystem, which is not part of this header.  It treats the reported
    address as accurate only to [pd_segfault_address] bytes: it rounds the
    address down "before comparing against guard-page boundaries". *)
Definition within_guard_page (A : Z) (G : guard_page) : bool :=
  let a := round_down A pd_segfault_address in
  (gp_base G <=? a) && (a <? gp_base G + gp_size G).

(** A field of an object, and a field placed at a byte offset. *)
Record field : Type := Field { f_name : string; f_size : N }.

Record placed : Type := Placed { p_field : field; p_offset : Z }.

Definition p_end (p : placed) : Z := p_offset p + Z.of_N (f_size (p_field p)).

(** Bytes between the end of [p] and the start of [q]. *)
Definition separation (p q : placed) : Z := p_offset q - p_end p.

(** Modelled from the spec: the padding insertion of the object-layout
    logic, which is not part of this header.  Asked to keep the fields [fs]
    clear of false sharing, it places them in order from offset [off] and
    inserts [DEFAULT_PADDING_SIZE] bytes after each: "insert at least this
    many bytes of separation between independently-contended fields". *)
Fixpoint layout_contended (off : Z) (fs : list field) : list placed :=
  match fs with
  | [] => []
  | f :: rest =>
      Placed f off ::
      layout_contended (off + Z.of_N (f_size f) + DEFAULT_PADDING_SIZE) rest
  end.

(** The names a header introduces, its guard included. *)
Definition header_names (h : header) : list string :=
  guard h :: map line_name (lines h).






(** The cache line a byte address falls into, for lines of
    [DEFAULT_CACHE_LINE_SIZE] bytes. *)
Definition cache_line_of (a : Z) : Z := a / DEFAULT_CACHE_LINE_SIZE.

(** ** Properties of the translation model *)

Section TranslationLemmas.

Implicit Types (st : tu_state) (l : line) (ls : list line).

(** An accepted line never changes an object that is already declared. *)
Lemma step_objects_mono st st' l n v :
  step st l = Some st' -> objects st !! n = Some v -> objects st' !! n = Some v.
Proof.
  intros Hs Hn. destruct l as [m body | m | ty m init]; simpl in Hs.
  - destruct (macros st !! m) as [old|].
    + case_bool_decide; inversion Hs; subst; assumption.
    + inversion Hs; subst; assumption.
  - inversion Hs; subst; assumption.
  - destruct (expand_all (macros st) [Ident m]) as [[|[z|b|m'] [|? ?]]|];
      try discriminate.
    destruct (objects st !! m') as [w|] eqn:Hm'; [discriminate|].
    destruct (eval_init st ty init); [|discriminate].
    inversion Hs; subst; simpl.
    rewrite lookup_insert_ne; [assumption|].
    intros ->. rewrite Hm' in Hn. discriminate.
Qed.

(** An accepted line other than [#undef] never changes a macro that is
    already defined. *)
Lemma step_macros_mono st st' l n body :
  is_undef l = false ->
  step st l = Some st' -> macros st !! n = Some body -> macros st' !! n = Some body.
Proof.
  intros Hu Hs Hn. destruct l as [m b | m | ty m init]; simpl in Hs;
    [| discriminate |].
  - destruct (macros st !! m) as [old|] eqn:Hm.
    + case_bool_decide; inversion Hs; subst; assumption.
    + inversion Hs; subst; simpl.
      rewrite lookup_insert_ne; [assumption|].
      intros ->. rewrite Hm in Hn. discriminate.
  - destruct (expand_all (macros st) [Ident m]) as [[|[z|b|m'] [|? ?]]|];
      try discriminate.
    destruct (objects st !! m'); [discriminate|].
    destruct (eval_init st ty init); [|discriminate].
    inversion Hs; subst; assumption.
Qed.

Lemma process_objects_mono ls : forall st st' n v,
  process ls st = Some st' -> objects st !! n = Some v -> objects st' !! n = Some v.
Proof.
  induction ls as [|l ls IH]; simpl; intros st st' n v Hp Hn.
  - inversion Hp; subst; assumption.
  - destruct (step st l) as [st1|] eqn:Hs; [|discriminate].
    eapply IH; [eassumption|]. eapply step_objects_mono; eassumption.
Qed.

Lemma process_macros_mono ls : forall st st' n body,
  existsb is_undef ls = false ->
  process ls st = Some st' -> macros st !! n = Some body -> macros st' !! n = Some body.
Proof.
  induction ls as [|l ls IH]; simpl; intros st st' n body Hu Hp Hn.
  - inversion Hp; subst; assumption.
  - apply orb_false_iff in Hu as [Hl Hls].
    destruct (step st l) as [st1|] eqn:Hs; [|discriminate].
    eapply IH; [assumption | eassumption |].
    eapply step_macros_mono; eassumption.
Qed.

(** Macro replacement never runs out of fuel: every nested replacement
    hides one more macro of the table. *)
Lemma replace_tokens_total sub (M : gmap string (list token)) hide ts :
  (forall s body, s ∉ hide -> M !! s = Some body -> is_Some (sub (s :: hide) body)) ->
  is_Some (replace_tokens sub M hide ts).
Proof.
  intros Hsub. induction ts as [|t ts [r Hr]]; [eexists; reflexivity|].
  destruct t as [z|b|s]; simpl; rewrite Hr; simpl; try (eexists; reflexivity).
  case_bool_decide; [eexists; reflexivity|].
  destruct (M !! s) as [body|] eqn:Hs; [|eexists; reflexivity].
  destruct (Hsub s body) as [b' ->]; [assumption | assumption |].
  eexists; reflexivity.
Qed.

Lemma hidden_macros_bound (M : gmap string (list token)) (hide : list string) :
  NoDup hide -> (forall s, s ∈ hide -> is_Some (M !! s)) ->
  (length hide <= size M)%nat.
Proof.
  intros Hnd Hin.
  rewrite <- (size_dom (D := gset string) M).
  rewrite <- (size_list_to_set (C := gset string) hide Hnd).
  apply subseteq_size. intros s Hs.
  apply elem_of_dom, Hin. apply elem_of_list_to_set in Hs. exact Hs.
Qed.

Lemma expand_total : forall fuel (M : gmap string (list token)) hide ts,
  NoDup hide -> (forall s, s ∈ hide -> is_Some (M !! s)) ->
  (size M < fuel + length hide)%nat ->
  is_Some (expand fuel M hide ts).
Proof.
  induction fuel as [|fuel IH]; intros M hide ts Hnd Hin Hlt.
  - pose proof (hidden_macros_bound M hide Hnd Hin). simpl in Hlt. lia.
  - simpl. apply replace_tokens_total. intros s body Hs HM. apply IH.
    + constructor; assumption.
    + intros s' [-> | Hs']%elem_of_cons; [eauto | auto].
    + simpl. lia.
Qed.

Lemma expand_all_total (M : gmap string (list token)) ts :
  is_Some (expand_all M ts).
Proof.
  apply expand_total; [constructor | | simpl; lia].
  intros s Hs. apply elem_of_nil in Hs. contradiction.
Qed.

(** A replacement that left no identifier behind is the same with more
    fuel and in every larger macro table. *)
Lemma replace_tokens_stable sub sub' (M M' : gmap string (list token)) hide :
  (forall h b r, sub h b = Some r -> forallb is_literal r = true -> sub' h b = Some r) ->
  M ⊆ M' ->
  forall ts r,
    replace_tokens sub M hide ts = Some r -> forallb is_literal r = true ->
    replace_tokens sub' M' hide ts = Some r.
Proof.
  intros Hsub HM. induction ts as [|t ts IH]; intros r He Hr; [assumption|].
  destruct t as [z|b|s]; simpl in *.
  - destruct (replace_tokens sub M hide ts) as [r0|]; [|discriminate].
    inversion He; subst; simpl in Hr. rewrite (IH r0); auto.
  - destruct (replace_tokens sub M hide ts) as [r0|]; [|discriminate].
    inversion He; subst; simpl in Hr. rewrite (IH r0); auto.
  - case_bool_decide.
    + destruct (replace_tokens sub M hide ts); inversion He; subst; discriminate.
    + destruct (M !! s) as [body|] eqn:Hs.
      * rewrite (lookup_weaken _ _ _ _ Hs HM).
        destruct (sub (s :: hide) body) as [b'|] eqn:Hb; [|discriminate].
        destruct (replace_tokens sub M hide ts) as [r'|]; [|discriminate].
        inversion He; subst. rewrite forallb_app in Hr.
        apply andb_true_iff in Hr as [Hb' Hr'].
        rewrite (Hsub _ _ _ Hb Hb'), (IH r'); auto.
      * destruct (replace_tokens sub M hide ts); inversion He; subst; discriminate.
Qed.

Lemma expand_stable : forall fuel fuel' (M M' : gmap string (list token)) hide ts r,
  (fuel <= fuel')%nat -> M ⊆ M' ->
  expand fuel M hide ts = Some r -> forallb is_literal r = true ->
  expand fuel' M' hide ts = Some r.
Proof.
  induction fuel as [|fuel IH]; intros fuel' M M' hide ts r Hle HM He Hr;
    [discriminate|].
  destruct fuel' as [|fuel']; [lia|]. simpl in *.
  eapply replace_tokens_stable; [| exact HM | exact He | exact Hr].
  intros h b r0 H1 H2. eapply IH; [lia | exact HM | exact H1 | exact H2].
Qed.

Lemma expand_all_stable (M M' : gmap string (list token)) ts r :
  M ⊆ M' -> expand_all M ts = Some r -> forallb is_literal r = true ->
  expand_all M' ts = Some r.
Proof.
  intros HM. apply expand_stable; [|exact HM].
  apply le_n_S. apply map_subseteq_size. exact HM.
Qed.

End TranslationLemmas.

(** Including a header a second time changes nothing, provided the header
    does not undefine its own guard. *)
Lemma include_twice h st st' :
  existsb is_undef (lines h) = false ->
  include h st = Some st' -> include h st' = Some st'.
Proof.
  intros Hu Hi. unfold include in *.
  destruct (defined st (guard h)) eqn:Hd.
  - inversion Hi; subst. rewrite Hd. reflexivity.
  - assert (Hg : macros st' !! guard h = Some []).
    { unfold defined in Hd. apply bool_decide_eq_false in Hd.
      simpl in Hi. destruct (macros st !! guard h) eqn:E;
        [exfalso; apply Hd; eauto|].
      eapply process_macros_mono; [exact Hu | exact Hi |].
      simpl. apply lookup_insert_eq. }
    unfold defined. rewrite Hg. rewrite bool_decide_eq_true_2 by eauto.
    reflexivity.
Qed.

(** Replacement of single tokens. *)


(** A macro whose body is one literal is replaced by that literal. *)
Lemma expand_all_macro_literal (M : gmap string (list token)) s t :
  M !! s = Some [t] -> is_literal t = true ->
  expand_all M [Ident s] = Some [t].
Proof.
  intros Hs Ht.
  apply (expand_all_stable {[ s := [t] ]} M); [| | simpl; rewrite Ht; reflexivity].
  - apply map_singleton_subseteq_l. exact Hs.
  - unfold expand_all. rewrite map_size_singleton. simpl.
    rewrite lookup_singleton_eq.
    destruct t; [reflexivity | reflexivity | discriminate].
Qed.

(** A macro whose body names a macro of the former kind is replaced by the
    same literal. *)
Lemma expand_all_macro_alias (M : gmap string (list token)) s s' t :
  s <> s' -> M !! s = Some [Ident s'] -> M !! s' = Some [t] ->
  is_literal t = true ->
  expand_all M [Ident s] = Some [t].
Proof.
  intros Hne Hs Hs' Ht.
  apply (expand_all_stable (<[ s := [Ident s'] ]> {[ s' := [t] ]}) M);
    [| | simpl; rewrite Ht; reflexivity].
  - apply insert_subseteq_l; [exact Hs|].
    apply map_singleton_subseteq_l. exact Hs'.
  - unfold expand_all.
    rewrite map_size_insert_None by (apply lookup_singleton_ne; congruence).
    rewrite map_size_singleton. simpl.
    rewrite lookup_insert_eq. cbn [replace_tokens].
    rewrite bool_decide_eq_false_2
      by (rewrite list_elem_of_singleton; congruence).
    rewrite lookup_insert_ne by exact Hne. rewrite lookup_singleton_eq.
    destruct t; [reflexivity | reflexivity | discriminate].
Qed.

(** What a name reads as, from the tables. *)


Lemma read_macro_literal st n t :
  macros st !! n = Some [t] -> is_literal t = true ->
  read st n = literal_value t.
Proof.
  intros Hm Ht. unfold read. rewrite (expand_all_macro_literal _ _ _ Hm Ht).
  destruct t; [reflexivity | reflexivity | discriminate].
Qed.

Lemma read_macro_alias st n n' t :
  n <> n' -> macros st !! n = Some [Ident n'] -> macros st !! n' = Some [t] ->
  is_literal t = true ->
  read st n = literal_value t.
Proof.
  intros Hne Hm Hm' Ht. unfold read.
  rewrite (expand_all_macro_alias _ _ _ _ Hne Hm Hm' Ht).
  destruct t; [reflexivity | reflexivity | discriminate].
Qed.




(** Which later lines keep a line of a header in effect. *)








(** ** Properties of rounding *)

Section Rounding.

Variable g : Z.
Hypothesis g_pos : 0 < g.

Lemma round_down_multiple x : (g | round_down x g).
Proof. exists (x / g). unfold round_down. lia. Qed.

Lemma round_down_le x : round_down x g <= x.
Proof. unfold round_down. apply Z.mul_div_le. exact g_pos. Qed.

Lemma round_down_gap x : x - round_down x g < g.
Proof.
  unfold round_down. pose proof (Z.mod_pos_bound x g g_pos) as Hm.
  rewrite (Z.div_mod x g) at 1 by lia. lia.
Qed.

(** [round_down x g] is the nearest multiple of [g] below [x]: no multiple
    of [g] lies strictly between it and [x]. *)
Lemma round_down_greatest x m : (g | m) -> m <= x -> m <= round_down x g.
Proof.
  intros [k ->] Hle. unfold round_down.
  assert (k <= x / g) by (apply Z.div_le_lower_bound; lia).
  nia.
Qed.

Lemma round_down_fixes_multiples m : (g | m) -> round_down m g = m.
Proof.
  intros [k ->]. unfold round_down. rewrite Z.div_mul by lia. lia.
Qed.

Lemma round_down_idempotent x : round_down (round_down x g) g = round_down x g.
Proof. apply round_down_fixes_multiples, round_down_multiple. Qed.

End Rounding.

(** For a granularity [2 ^ k] the bit mask computes the same rounding. *)
Lemma round_down_mask_pow2 k x : 0 <= k -> round_down_mask x (2 ^ k) = round_down x (2 ^ k).
Proof.
  intros Hk. unfold round_down_mask, round_down.
  replace (2 ^ k - 1) with (Z.ones k) by (rewrite Z.ones_equiv; lia).
  rewrite <- Z.ldiff_land.
  rewrite Z.ldiff_ones_r by exact Hk.
  rewrite Z.shiftr_div_pow2, Z.shiftl_mul_pow2 by exact Hk. lia.
Qed.

(** ** Properties of the padding insertion *)

Lemma layout_contended_fields fs : forall off,
  map p_field (layout_contended off fs) = fs.
Proof.
  induction fs as [|f fs IH]; intros off; simpl; [reflexivity|].
  rewrite IH. reflexivity.
Qed.

Lemma layout_contended_offset_ge fs : forall off k q,
  layout_contended off fs !! k = Some q -> off <= p_offset q.
Proof.
  induction fs as [|f fs IH]; intros off k q Hq; [discriminate|].
  destruct k as [|k]; simpl in Hq.
  - inversion Hq; subst; simpl. lia.
  - apply IH in Hq. unfold DEFAULT_PADDING_SIZE, DEFAULT_CACHE_LINE_SIZE in Hq. lia.
Qed.

(** ** The header is translated, and agrees with the constants *)

Lemma s390_unit_translates : is_Some s390_unit.
Proof.
  assert (H : match s390_unit with Some _ => true | None => false end = true)
    by (vm_compute; reflexivity).
  destruct s390_unit as [st|]; [exists st; reflexivity | discriminate H].
Qed.

Lemma s390_unit_state : s390_unit = Some s390_state.
Proof.
  destruct s390_unit_translates as [st E]. unfold s390_state.
  rewrite E. reflexivity.
Qed.

(** What the translated header denotes under each name is the constant of
    that name. *)
Lemma constants_adequate :
  s390_read "ShortenBranches" = Some (Vbool ShortenBranches) /\
  s390_read "StackAlignmentInBytes" = Some (Vint StackAlignmentInBytes) /\
  s390_read "pd_segfault_address" = Some (Vsize pd_segfault_address) /\
  s390_read "CCallingConventionRequiresIntsAsLongs"
    = Some (Vbool CCallingConventionRequiresIntsAsLongs) /\
  s390_read "DEFAULT_CACHE_LINE_SIZE" = Some (Vint DEFAULT_CACHE_LINE_SIZE) /\
  s390_read "DEFAULT_PADDING_SIZE" = Some (Vint DEFAULT_PADDING_SIZE).
Proof. repeat apply conj; vm_compute; reflexivity. Qed.

(** The translation model does reject what the language rejects: a macro
    defined again with another body, an object declared again, and an
    object whose declarator is replaced by a literal. *)
Example redefined_macro_rejected :
  process [Define "DEFAULT_CACHE_LINE_SIZE" [Lit_int 64]] s390_state = None.
Proof. vm_compute. reflexivity. Qed.

Example redeclared_object_rejected :
  process [Const c_int "StackAlignmentInBytes" [Lit_int 16]] s390_state = None.
Proof. vm_compute. reflexivity. Qed.

Example macro_as_declarator_rejected :
  process [Const c_int "DEFAULT_PADDING_SIZE" [Lit_int 128]] s390_state = None.
Proof. vm_compute. reflexivity. Qed.

(** A flag macro is defined but denotes no value; an unknown name is
    neither. *)
Example flag_macro_has_no_value :
  s390_defined "SUPPORTS_NATIVE_CX8" = true /\
  s390_read "SUPPORTS_NATIVE_CX8" = None /\
  s390_defined "SUPPORTS_NATIVE_CX16" = false /\
  s390_read "SUPPORTS_NATIVE_CX16" = None.
Proof. repeat apply conj; vm_compute; reflexivity. Qed.

(** An [#undef] does change what a later [#ifdef] sees, which is why the
    header's having none matters. *)
Example undef_is_observable :
  (st ← process [Undef "SUPPORTS_NATIVE_CX8"] s390_state;
   Some (defined st "SUPPORTS_NATIVE_CX8")) = Some false.
Proof. vm_compute. reflexivity. Qed.

(** A later macro of the same name hides an object from later uses, but
    the object is what it was. *)
Example later_macro_hides_object :
  (st ← process [Define "StackAlignmentInBytes" [Lit_int 16]] s390_state;
   Some (read st "StackAlignmentInBytes", objects st !! "StackAlignmentInBytes"))
  = Some (Some (Vint 16), Some (Vint 8)).
Proof. vm_compute. reflexivity. Qed.

(** An initialiser may name a constant object declared before. *)
Example initialiser_names_object :
  (st ← process [Const c_size_t "BytesPerFrameSlot" [Ident "StackAlignmentInBytes"]]
          s390_state;
   objects st !! "BytesPerFrameSlot") = Some (Vsize 8).
Proof. vm_compute. reflexivity. Qed.

(** A self-referential macro is replaced once and then left alone. *)
Example self_reference_terminates :
  expand_all {["loop" := [Ident "loop"; Lit_int 1]]} [Ident "loop"]
  = Some [Ident "loop"; Lit_int 1].
Proof. vm_compute. reflexivity. Qed.

Example round_down_examples :
  round_down 4095 pd_segfault_address = 0 /\
  round_down 4096 pd_segfault_address = 4096 /\
  round_down 12345 pd_segfault_address = 12288 /\
  round_down_mask 12345 pd_segfault_address = 12288.
Proof. repeat apply conj; reflexivity. Qed.

Example layout_example :
  layout_contended 16 [Field "owner" 8; Field "entry_list" 8; Field "waiters" 4]
  = [Placed (Field "owner" 8) 16;
     Placed (Field "entry_list" 8) 280;
     Placed (Field "waiters" 4) 544].
Proof. reflexivity. Qed.

(** ** The descriptor's facts *)

(** C1: the literal values of the descriptor.  [StackAlignmentInBytes] is
    8, the fault-address granularity [pd_segfault_address] is 4096, the
    cache line size [DEFAULT_CACHE_LINE_SIZE] and the padding size
    [DEFAULT_PADDING_SIZE] are both 256, and
    [CCallingConventionRequiresIntsAsLongs] and [ShortenBranches] are true:
    as read from the translated header, and as the constants. *)
Theorem literal_fact_values :
  (s390_read "StackAlignmentInBytes" = Some (Vint 8) /\
   s390_read "pd_segfault_address" = Some (Vsize 4096) /\
   s390_read "DEFAULT_CACHE_LINE_SIZE" = Some (Vint 256) /\
   s390_read "DEFAULT_PADDING_SIZE" = Some (Vint 256) /\
   s390_read "CCallingConventionRequiresIntsAsLongs" = Some (Vbool true) /\
   s390_read "ShortenBranches" = Some (Vbool true)) /\
  (StackAlignmentInBytes = 8 /\
   pd_segfault_address = 4096 /\
   DEFAULT_CACHE_LINE_SIZE = 256 /\
   DEFAULT_PADDING_SIZE = 256 /\
   CCallingConventionRequiresIntsAsLongs = true /\
   ShortenBranches = true).
Proof.
  split.
  - repeat apply conj; vm_compute; reflexivity.
  - repeat apply conj; reflexivity.
Qed.

(** C2: the capability flags.  [CPU_MULTI_COPY_ATOMIC] and
    [SUPPORTS_NATIVE_CX8] are defined, so multi-copy atomicity and the
    native 8-byte compare-and-swap are true, and
    [SUPPORT_RESERVED_STACK_AREA] is defined, so the reserved stack area is
    present. *)
Theorem capability_flags :
  CPU_MULTI_COPY_ATOMIC = true /\
  SUPPORTS_NATIVE_CX8 = true /\
  SUPPORT_RESERVED_STACK_AREA = true.
Proof. repeat apply conj; vm_compute; reflexivity. Qed.

(** C3: the padding size is at least the cache line size, and in this
    descriptor the two are equal, both as constants and as read from the
    translated header, where the one macro is replaced by the other. *)
Theorem padding_covers_cache_line :
  DEFAULT_CACHE_LINE_SIZE <= DEFAULT_PADDING_SIZE /\
  DEFAULT_PADDING_SIZE = DEFAULT_CACHE_LINE_SIZE /\
  s390_read "DEFAULT_PADDING_SIZE" = s390_read "DEFAULT_CACHE_LINE_SIZE".
Proof.
  unfold DEFAULT_PADDING_SIZE.
  split; [lia | split; [reflexivity | vm_compute; reflexivity]].
Qed.

(** C4: [StackAlignmentInBytes], [DEFAULT_CACHE_LINE_SIZE] and
    [DEFAULT_PADDING_SIZE] are each a positive power of two, and
    [StackAlignmentInBytes] is at least the natural word size of 8 bytes. *)
Theorem sizes_are_powers_of_two :
  (is_power_of_2 StackAlignmentInBytes /\ 0 < StackAlignmentInBytes) /\
  (is_power_of_2 DEFAULT_CACHE_LINE_SIZE /\ 0 < DEFAULT_CACHE_LINE_SIZE) /\
  (is_power_of_2 DEFAULT_PADDING_SIZE /\ 0 < DEFAULT_PADDING_SIZE) /\
  wordSize <= StackAlignmentInBytes /\ wordSize = 8.
Proof.
  unfold is_power_of_2, DEFAULT_PADDING_SIZE, DEFAULT_CACHE_LINE_SIZE,
    StackAlignmentInBytes, wordSize.
  repeat apply conj; try lia.
  - exists 3. split; [lia | reflexivity].
  - exists 8. split; [lia | reflexivity].
  - exists 8. split; [lia | reflexivity].
Qed.

(** C5: the fault-address granularity [pd_segfault_address] is a positive
    power of two, and rounding an address down to a multiple of it is
    idempotent: rounding a rounded address changes nothing. *)
Theorem segfault_rounding_idempotent :
  is_power_of_2 pd_segfault_address /\ 0 < pd_segfault_address /\
  forall x : Z,
    round_down (round_down x pd_segfault_address) pd_segfault_address
    = round_down x pd_segfault_address.
Proof.
  split; [|split].
  - exists 12. split; [lia | reflexivity].
  - reflexivity.
  - intros x. apply round_down_idempotent. reflexivity.
Qed.

(** C6: for every fault address [A] and every guard page [G] given as a
    byte range, the fault classifier answers "within guard page [G]"
    exactly when [A] rounded down to the fault-address granularity lies in
    the byte range of [G]. *)
Theorem fault_classification :
  forall (A : Z) (G : guard_page),
    within_guard_page A G = true <->
    in_byte_range (round_down A pd_segfault_address) G.
Proof.
  intros A G. unfold within_guard_page, in_byte_range. cbv zeta.
  rewrite andb_true_iff, Z.leb_le, Z.ltb_lt. reflexivity.
Qed.

(** The classification of a fault does not depend on where in its
    granularity window the address lies, so it is the same for the address
    the hardware reports and for the exact one. *)
Lemma within_guard_page_window A B G :
  round_down A pd_segfault_address = round_down B pd_segfault_address ->
  within_guard_page A G = within_guard_page B G.
Proof. intros H. unfold within_guard_page. rewrite H. reflexivity. Qed.

(** For a guard page whose bounds are multiples of the granularity, the
    rounding loses nothing: the classifier answers for the exact address. *)
Lemma within_aligned_guard_page A G :
  (pd_segfault_address | gp_base G) -> (pd_segfault_address | gp_size G) ->
  within_guard_page A G = true <-> in_byte_range A G.
Proof.
  intros [b Hb] [n Hn]. unfold within_guard_page, in_byte_range. cbv zeta.
  rewrite andb_true_iff, Z.leb_le, Z.ltb_lt, Hb, Hn.
  assert (Hg : 0 < pd_segfault_address) by reflexivity.
  pose proof (round_down_le _ Hg A) as Hle.
  pose proof (round_down_gap _ Hg A) as Hgap.
  pose proof (round_down_multiple pd_segfault_address A) as [q Hq].
  rewrite Hq in *. clear Hq Hb Hn.
  generalize dependent pd_segfault_address. intros g Hg Hle Hgap.
  assert (Hlo : b * g <= q * g <-> b <= q) by nia.
  assert (Hhi : q * g < b * g + n * g <-> q < b + n) by nia.
  rewrite Hlo, Hhi. split; intros [H1 H2]; split; nia.
Qed.

(** C7: however many fields are laid out for false-sharing avoidance, any
    two of them are separated by at least the padding size
    [DEFAULT_PADDING_SIZE], which is 256 bytes. *)
Theorem contended_fields_separated :
  forall (fs : list field) (off : Z) (i j : nat) (p q : placed),
    (i < j)%nat ->
    layout_contended off fs !! i = Some p ->
    layout_contended off fs !! j = Some q ->
    DEFAULT_PADDING_SIZE <= separation p q /\ 256 <= separation p q.
Proof.
  assert (HP : DEFAULT_PADDING_SIZE = 256) by reflexivity. rewrite HP.
  induction fs as [|f fs IH]; intros off i j p q Hij Hp Hq; [discriminate|].
  destruct j as [|j]; [lia|]. simpl in Hq.
  destruct i as [|i]; simpl in Hp.
  - inversion Hp; subst. apply layout_contended_offset_ge in Hq.
    unfold separation, p_end. simpl. rewrite HP in Hq. lia.
  - eapply (IH _ i j); [lia | exact Hp | exact Hq].
Qed.

Lemma contended_fields_separated_witness :
  DEFAULT_PADDING_SIZE <= separation (Placed (Field "head" 8) 0) (Placed (Field "tail" 4) 264) /\
  256 <= separation (Placed (Field "head" 8) 0) (Placed (Field "tail" 4) 264).
Proof.
  apply (contended_fields_separated [Field "head" 8; Field "tail" 4] 0 0%nat 1%nat);
    [lia | reflexivity | reflexivity].
Defined.






(** C9: the size constants form a divisibility chain.  The fault-address
    granularity is a multiple of the cache line size, which is a multiple
    of the stack alignment, so an address aligned to the granularity is
    cache-line aligned and stack aligned as well. *)
Theorem size_divisibility_chain :
  (DEFAULT_CACHE_LINE_SIZE | pd_segfault_address) /\
  (StackAlignmentInBytes | DEFAULT_CACHE_LINE_SIZE) /\
  forall a : Z,
    (pd_segfault_address | a) ->
    (DEFAULT_CACHE_LINE_SIZE | a) /\ (StackAlignmentInBytes | a).
Proof.
  assert (H1 : (DEFAULT_CACHE_LINE_SIZE | pd_segfault_address))
    by (exists 16; reflexivity).
  assert (H2 : (StackAlignmentInBytes | DEFAULT_CACHE_LINE_SIZE))
    by (exists 32; reflexivity).
  split; [exact H1 | split; [exact H2|]].
  intros a Ha.
  assert (Hc : (DEFAULT_CACHE_LINE_SIZE | a)) by (eapply Z.divide_trans; eassumption).
  split; [exact Hc | eapply Z.divide_trans; eassumption].
Qed.

Lemma size_divisibility_chain_witness :
  (pd_segfault_address | 8192) /\
  (DEFAULT_CACHE_LINE_SIZE | 8192) /\ (StackAlignmentInBytes | 8192).
Proof.
  assert (H : (pd_segfault_address | 8192)) by (exists 2; reflexivity).
  split; [exact H|].
  exact (proj2 (proj2 size_divisibility_chain) 8192 H).
Defined.

(** C10: rounding an address down to the fault-address granularity of 4096
    never overshoots.  The rounded address is at most the address and less
    than 4096 below it, so both lie in the same 4096-byte window. *)
Theorem segfault_rounding_window :
  forall x : Z,
    round_down x pd_segfault_address <= x /\
    x - round_down x pd_segfault_address < 4096 /\
    round_down x 4096 = round_down x pd_segfault_address.
Proof.
  intros x. assert (Hg : 0 < pd_segfault_address) by reflexivity.
  split; [apply round_down_le; exact Hg|].
  split; [apply (round_down_gap _ Hg)|reflexivity].
Qed.

(** ** Further properties of the header *)

(** *** What an inclusion does to the state it finds *)

Lemma step_macros_frame st st' l n :
  step st l = Some st' -> n <> line_name l -> macros st' !! n = macros st !! n.
Proof.
  intros Hs Hn. destruct l as [m body | m | ty m init]; simpl in *.
  - destruct (macros st !! m) as [old|].
    + case_bool_decide; inversion Hs; subst; reflexivity.
    + inversion Hs; subst; simpl. apply lookup_insert_ne. congruence.
  - inversion Hs; subst; simpl. apply lookup_delete_ne. congruence.
  - destruct (expand_all (macros st) [Ident m]) as [[|[z|b|m'] [|? ?]]|];
      try discriminate.
    destruct (objects st !! m'); [discriminate|].
    destruct (eval_init st ty init); [|discriminate].
    inversion Hs; subst; reflexivity.
Qed.

Lemma process_macros_frame ls n : forall st st',
  process ls st = Some st' -> ~ In n (map line_name ls) ->
  macros st' !! n = macros st !! n.
Proof.
  induction ls as [|l ls IH]; simpl; intros st st' Hp Hn.
  - inversion Hp; subst; reflexivity.
  - destruct (step st l) as [st1|] eqn:Hs; [|discriminate].
    rewrite (IH st1 st' Hp) by tauto.
    apply (step_macros_frame _ _ l); [exact Hs | intros ->; tauto].
Qed.

(** After a successful inclusion the guard is defined. *)
Lemma include_defines_guard h st st' :
  existsb is_undef (lines h) = false ->
  include h st = Some st' -> is_Some (macros st' !! guard h).
Proof.
  intros Hu Hi. apply include_twice in Hi as Hi'; [|exact Hu].
  unfold include in Hi, Hi'. unfold defined in *.
  case_bool_decide as Hd'; [exact Hd'|].
  exfalso. case_bool_decide as Hd.
  - inversion Hi; subst. contradiction.
  - apply Hd'. exists []. simpl in Hi.
    destruct (macros st !! guard h) eqn:E; [exfalso; apply Hd; eauto|].
    eapply process_macros_mono; [exact Hu | exact Hi |].
    simpl. apply lookup_insert_eq.
Qed.

(** X1: the include guard.  Once the header has been included, including
    it again is a no-op, directly or after any further lines the unit
    accepts, as long as none of them is an [#undef]. *)
Theorem reinclusion_is_noop :
  forall (st st' : tu_state) (ls : list line) (st'' : tu_state),
    include globalDefinitions_s390_hpp st = Some st' ->
    existsb is_undef ls = false ->
    process ls st' = Some st'' ->
    include globalDefinitions_s390_hpp st'' = Some st''.
Proof.
  intros st st' ls st'' Hi Hu Hp.
  destruct (include_defines_guard globalDefinitions_s390_hpp st st' eq_refl Hi)
    as [b Hb].
  unfold include, defined.
  rewrite (process_macros_mono ls _ _ _ _ Hu Hp Hb).
  rewrite bool_decide_eq_true_2 by eauto. reflexivity.
Qed.

Lemma reinclusion_is_noop_witness :
  exists st'' : tu_state,
    process [Const c_int "BytesPerInt" [Lit_int 4]] s390_state = Some st'' /\
    include globalDefinitions_s390_hpp st'' = Some st''.
Proof.
  set (ls := [Const c_int "BytesPerInt" [Lit_int 4]]).
  assert (H : match process ls s390_state with Some _ => true | None => false end = true)
    by (vm_compute; reflexivity).
  destruct (process ls s390_state) as [st''|] eqn:Hp; [|discriminate H].
  exists st''. split; [reflexivity|].
  exact (reinclusion_is_noop tu_empty s390_state ls st'' s390_unit_state eq_refl Hp).
Defined.

(** X4: the header leaves alone what it finds.  A successful inclusion
    keeps every object and every macro the unit already has, and changes
    the macro table at no name other than the header's own. *)
Theorem inclusion_preserves_context :
  forall st st' : tu_state,
    include globalDefinitions_s390_hpp st = Some st' ->
    (forall n v, objects st !! n = Some v -> objects st' !! n = Some v) /\
    (forall n body, macros st !! n = Some body -> macros st' !! n = Some body) /\
    (forall n, ~ In n (header_names globalDefinitions_s390_hpp) ->
       macros st' !! n = macros st !! n).
Proof.
  intros st st' Hi. unfold include in Hi.
  destruct (defined st (guard globalDefinitions_s390_hpp)).
  - inversion Hi; subst. repeat split; auto.
  - split; [|split].
    + intros n v. eapply process_objects_mono. exact Hi.
    + intros n body.
      apply (process_macros_mono
               (Define (guard globalDefinitions_s390_hpp) []
                :: lines globalDefinitions_s390_hpp) st st' n body eq_refl Hi).
    + intros n Hn. eapply process_macros_frame; [exact Hi | exact Hn].
Qed.

Lemma inclusion_preserves_context_witness :
  exists st' : tu_state,
    include globalDefinitions_s390_hpp
      (TU {[ "ASSERT" := [Lit_bool true] ]} {[ "BytesPerInt" := Vint 4 ]}) = Some st' /\
    objects st' !! "BytesPerInt" = Some (Vint 4) /\
    macros st' !! "ASSERT" = Some [Lit_bool true].
Proof.
  set (st := TU {[ "ASSERT" := [Lit_bool true] ]} {[ "BytesPerInt" := Vint 4 ]}).
  assert (H : match include globalDefinitions_s390_hpp st with
              | Some _ => true | None => false end = true)
    by (vm_compute; reflexivity).
  destruct (include globalDefinitions_s390_hpp st) as [st'|] eqn:Hi;
    [|discriminate H].
  exists st'. split; [reflexivity|].
  destruct (inclusion_preserves_context st st' Hi) as (Ho & Hm & _).
  split; [apply Ho | apply Hm]; reflexivity.
Defined.

(** *** The padding size and the cache line size *)

(** X3: the padding size is the cache line size by name, not a copy of its
    value.  Wherever the padding macro is as the header defines it, it
    reads as whatever literal the cache line macro stands for at that
    point. *)
Theorem padding_follows_cache_line :
  forall (st : tu_state) (t : token),
    macros st !! "DEFAULT_PADDING_SIZE"
      = macros s390_state !! "DEFAULT_PADDING_SIZE" ->
    macros st !! "DEFAULT_CACHE_LINE_SIZE" = Some [t] ->
    is_literal t = true ->
    read st "DEFAULT_PADDING_SIZE" = read st "DEFAULT_CACHE_LINE_SIZE".
Proof.
  intros st t Hp Hc Ht.
  assert (Hh : macros s390_state !! "DEFAULT_PADDING_SIZE"
               = Some [Ident "DEFAULT_CACHE_LINE_SIZE"])
    by (vm_compute; reflexivity).
  rewrite Hh in Hp.
  rewrite (read_macro_alias st _ "DEFAULT_CACHE_LINE_SIZE" t);
    [| discriminate | exact Hp | exact Hc | exact Ht].
  rewrite (read_macro_literal st _ t Hc Ht). reflexivity.
Qed.

Lemma padding_follows_cache_line_witness :
  read (TU (<[ "DEFAULT_CACHE_LINE_SIZE" := [Lit_int 64] ]> (macros s390_state))
           (objects s390_state)) "DEFAULT_PADDING_SIZE"
  = read (TU (<[ "DEFAULT_CACHE_LINE_SIZE" := [Lit_int 64] ]> (macros s390_state))
             (objects s390_state)) "DEFAULT_CACHE_LINE_SIZE".
Proof.
  apply (padding_follows_cache_line _ (Lit_int 64));
    [vm_compute; reflexivity | vm_compute; reflexivity | reflexivity].
Defined.

(** X5: the padding size is exactly the separation that false-sharing
    avoidance needs.  Two bytes at least [d] apart are in different cache
    lines, wherever they are, if and only if [d] is at least
    [DEFAULT_PADDING_SIZE]. *)
Theorem padding_is_least_separation :
  forall d : Z,
    (forall a b : Z, d <= b - a -> cache_line_of a <> cache_line_of b) <->
    DEFAULT_PADDING_SIZE <= d.
Proof.
  intros d. unfold cache_line_of, DEFAULT_PADDING_SIZE, DEFAULT_CACHE_LINE_SIZE.
  split.
  - intros H. destruct (Z_lt_le_dec d 256) as [Hlt|Hle]; [|exact Hle].
    exfalso. apply (H 0 (Z.max d 0)); [lia|].
    rewrite (Z.div_small (Z.max d 0)) by lia. reflexivity.
  - intros Hd a b Hab Heq.
    assert (H1 : (a + 1 * 256) / 256 <= b / 256)
      by (apply Z.div_le_mono; lia).
    rewrite Z.div_add in H1 by lia. lia.
Qed.
